(** * ABCD: ray tracing with ABCD matrices

    A shallow embedding of [ABCD.py] (classes [Ray], [Matrix], [Lens],
    [Space], [Aperture] and [OpticalPath]) and the properties of its
    ray/matrix algebra and propagation engine.

    Numbers.  The Python code computes with floats; the specification speaks
    of real numbers.  Here every number is an exact rational ([Q]): rounding,
    NaN and overflow are outside the model.  Two things of the Python
    arithmetic are kept as they are:
    - [x / y] raises [ZeroDivisionError] when [y] is zero ([div]);
    - the default aperture diameter [float('+Inf')] is a value of its own
      ([PosInf]), larger than every height.
    [/] is true division (the arguments are floats, or the code runs under
    Python 3).  Equality of computed numbers is [Qeq] ([==]); where the
    code's expression is the stated one, syntactic equality ([=]) is proved.
    Equalities between different expressions are stated only where the
    doubles of the code agree as well (adding zero, multiplying by one or
    by zero, swapping the two operands of a sum).  What rounding changes is
    shown on the same formulas evaluated in IEEE binary64 ([Double]).

    Objects.  No method assigns an attribute of an object it did not create
    itself ([mul_ray] fills in a new [Ray()], [mul_matrix] returns a new
    [Matrix(...)]), so rays and elements are immutable values here.

    Effects.  [ZeroDivisionError] is the only exception the code can raise on
    numeric arguments ([result]); [print] is the only output ([stdout], a log
    of the calls).  A [for] loop with a body that may raise is [for_].
    The calls of [drawAt] that [drawOpticalElements] makes are a log too,
    and a formatted string ([text]) keeps its template and its numbers.
    What matplotlib draws ([drawAt], [drawObject], [drawRayTraces],
    [display], [save]) is not modelled. *)

From Stdlib Require Import String QArith Qabs ZArith List Lia Bool SpecFloat.
Import ListNotations.
Local Open Scope Q_scope.

(** ** Python values and effects *)

Inductive exn : Set :=
| ZeroDivisionError.

Inductive result (X : Type) : Type :=
| Ok (x : X)
| Raise (e : exn).
Arguments Ok {X} x.
Arguments Raise {X} e.

Definition bind {X Y : Type} (c : result X) (k : X -> result Y) : result Y :=
  match c with
  | Ok x => k x
  | Raise e => Raise e
  end.

Notation "x <- c ;; k" := (bind c (fun x => k))
  (at level 61, c at next level, right associativity).

(** [for x in xs: s = body(x, s)], left to right, stopping at the first
    exception. *)
Fixpoint for_ {X S : Type} (xs : list X) (body : X -> S -> result S) (s : S)
  : result S :=
  match xs with
  | [] => Ok s
  | x :: xs' => s' <- body x s ;; for_ xs' body s'
  end.

(** [range(N)]: [0, 1, ..., N-1], empty when [N <= 0]. *)
Definition range (N : Z) : list Z :=
  map Z.of_nat (seq 0 (Z.to_nat N)).

(** True division [a / b]. *)
Definition div (a b : Q) : result Q :=
  if Qeq_bool b 0 then Raise ZeroDivisionError else Ok (a / b).

(** A float that is either finite or [float('+Inf')]. *)
Inductive number : Set :=
| Finite (q : Q)
| PosInf.

(** [d / 2] *)
Definition half (d : number) : number :=
  match d with
  | Finite q => Finite (q / 2)
  | PosInf => PosInf
  end.

(** [x > d] for a finite [x] *)
Definition gt (x : Q) (d : number) : bool :=
  match d with
  | Finite q => negb (Qle_bool x q)
  | PosInf => false
  end.

(** ** class Ray *)

Module Ray.

Record t : Set := Ray {
  y : Q;
  theta : Q;
  z : Q;
  isBlocked : bool
}.

(** [Ray(y, theta, z)]: [isBlocked] defaults to [False]. *)
Definition new (y theta z : Q) : t := Ray y theta z false.

Definition fan (y radianMin radianMax : Q) (N : Z) : result (list t) :=
  for_ (range N)
    (fun i rays =>
       q <- div (inject_Z i * (radianMax - radianMin)) (inject_Z (N - 1)) ;;
       let theta := radianMin + q in
       Ok (rays ++ [new y theta 0]))
    [].

Definition fanGroup (yMin yMax : Q) (M : Z) (radianMin radianMax : Q) (N : Z)
  : result (list t) :=
  for_ (range M)
    (fun j rays =>
       for_ (range N)
         (fun i rays =>
            q <- div (inject_Z i * (radianMax - radianMin)) (inject_Z (N - 1)) ;;
            let theta := radianMin + q in
            p <- div (inject_Z j * (yMax - yMin)) (inject_Z (M - 1)) ;;
            let y := yMin + p in
            Ok (rays ++ [new y theta 0]))
         rays)
    [].

End Ray.

(** A string built by [template.format(args)].  How a float is written out
    in decimal is not modelled: the text keeps the template and the numbers
    handed to it. *)
Inductive text : Set :=
| Format (template : string) (args : list Q).

(** ** class Matrix *)

Module Matrix.

Record t : Set := Matrix {
  A : Q;
  B : Q;
  C : Q;
  D : Q;
  L : Q;
  apertureDiameter : number
}.

(** [Matrix(A, B, C, D, physicalLength, apertureDiameter)]; [float(x)] is
    [x] on exact numbers.  The defaults [physicalLength=0] and
    [apertureDiameter=float('+Inf')] are written out by the callers. *)
Definition init (A B C D physicalLength : Q) (apertureDiameter : number) : t :=
  Matrix A B C D physicalLength apertureDiameter.

Definition mul_matrix (self rightSideMatrix : t) : t :=
  let a := A self * A rightSideMatrix + B self * C rightSideMatrix in
  let b := A self * B rightSideMatrix + B self * D rightSideMatrix in
  let c := C self * A rightSideMatrix + D self * C rightSideMatrix in
  let d := C self * B rightSideMatrix + D self * D rightSideMatrix in
  let l := L self + L rightSideMatrix in
  init a b c d l PosInf.

Definition mul_ray (self : t) (rightSideRay : Ray.t) : Ray.t :=
  let y := A self * Ray.y rightSideRay + B self * Ray.theta rightSideRay in
  let theta := C self * Ray.y rightSideRay + D self * Ray.theta rightSideRay in
  let z := L self + Ray.z rightSideRay in
  if gt (Qabs (Ray.y rightSideRay)) (half (apertureDiameter self))
  then Ray.Ray y theta z true
  else Ray.Ray y theta z (Ray.isBlocked rightSideRay).

(** [Matrix.__str__]: the description is the concatenation of two formatted
    pieces; the template of the first one ends with a newline. *)
Definition __str__ (self : t) : result (list text) :=
  let description :=
    [Format ("A={0}, B={1}, C={2}, D={3}" ++ String (Ascii.ascii_of_nat 10) "")
            [A self; B self; C self; D self]] in
  f <- div (-1) (C self) ;;
  Ok (description ++ [Format "f={0:0.3f}" [f]]).

End Matrix.

(** The values that can stand on the right of [*]: an element, a ray, or
    anything else. *)
Inductive object : Set :=
| OMatrix (m : Matrix.t)
| ORay (r : Ray.t)
| ONone
| OInt (n : Z)
| OFloat (q : Q)
| OStr (s : string).

(** Standard output: one entry per [print] call, holding its arguments. *)
Definition stdout : Set := list (list object).

Definition IO (X : Type) : Type := stdout -> X * stdout.

Definition print (args : list object) : IO unit :=
  fun out => (tt, out ++ [args]).

(** [for x in xs: s = body(x, s)] for a body that may print. *)
Fixpoint for_io {X S : Type} (xs : list X) (body : X -> S -> IO S) (s : S)
  : IO S :=
  fun out =>
    match xs with
    | [] => (s, out)
    | x :: xs' => let (s', out') := body x s out in for_io xs' body s' out'
    end.

(** [Matrix.__mul__]: a function that ends without [return] returns [None]. *)
Definition __mul__ (self : Matrix.t) (rightSide : object) : IO object :=
  fun out =>
    match rightSide with
    | OMatrix m => (OMatrix (Matrix.mul_matrix self m), out)
    | ORay r => (ORay (Matrix.mul_ray self r), out)
    | _ =>
        let (_, out') :=
          print [OStr "Unrecognized right side element in multiply: "; rightSide] out in
        (ONone, out')
    end.

(** ** class Lens, class Space, class Aperture

    Each subclass only fixes the coefficients handed to [Matrix.__init__]
    (and how the element is drawn, which is not modelled). *)

Definition Lens (f : Q) (diameter : number) : result Matrix.t :=
  c <- div (-1) f ;;
  Ok (Matrix.init 1 0 c 1 0 diameter).

Definition Space (d : Q) : Matrix.t :=
  Matrix.init 1 d 0 1 d PosInf.

Definition Aperture (diameter : Q) : Matrix.t :=
  Matrix.init 1 0 0 1 0 (Finite diameter).

(** ** class OpticalPath *)

Module OpticalPath.

Record t : Set := OpticalPath {
  name : string;
  elements : list Matrix.t;
  objectHeight : Q;
  objectPosition : Q;
  fanAngle : Q;
  fanNumber : Z;
  rayNumber : Z
}.

Definition init : t :=
  OpticalPath "Ray tracing" [] 1 0 (1 # 2) 10 3.

Definition append (self : t) (matrix : Matrix.t) : t :=
  OpticalPath (name self) (elements self ++ [matrix]) (objectHeight self)
    (objectPosition self) (fanAngle self) (fanNumber self) (rayNumber self).

Definition transferMatrix (self : t) : IO object :=
  for_io (elements self)
    (fun element transferMatrix => __mul__ element transferMatrix)
    (OMatrix (Matrix.init 1 0 0 1 0 PosInf)).

Definition propagate (self : t) (inputRay : object) : IO (list object) :=
  fun out =>
    let ray := inputRay in
    let outputRays := [ray] in
    let (s, out') :=
      for_io (elements self)
        (fun element '(ray, outputRays) out =>
           let (ray, out) := __mul__ element ray out in
           ((ray, outputRays ++ [ray]), out))
        (ray, outputRays) out in
    (snd s, out').

Definition propagateMany (self : t) (inputRays : list object)
  : IO (list (list object)) :=
  for_io inputRays
    (fun inputRay output out =>
       let ray := inputRay in
       let outputRays := [ray] in
       let (s, out') :=
         for_io (elements self)
           (fun element '(ray, outputRays) out =>
              let (ray, out) := __mul__ element ray out in
              ((ray, outputRays ++ [ray]), out))
           (ray, outputRays) out in
       (output ++ [snd s], out'))
    [].

(** [drawOpticalElements]: the calls [element.drawAt(z, axes)] it makes, in
    order, each as the element and the position [z] handed to it (what
    [drawAt] draws is not modelled). *)
Definition drawOpticalElements (self : t) : list (Matrix.t * Q) :=
  snd (fold_left
         (fun '(z, calls) element =>
            (z + Matrix.L element, calls ++ [(element, z)]))
         (elements self) (0, [])).

(** [rearrangeRaysForPlotting(rayList, removeBlockedRaysCompletely)] on a
    list of rays; the default [True] of the flag is written out by the
    callers. *)
Definition rearrangeRaysForPlotting (rayList : list Ray.t)
           (removeBlockedRaysCompletely : bool) : list Q * list Q :=
  fold_left
    (fun '(x, y) ray =>
       if negb (Ray.isBlocked ray) then (x ++ [Ray.z ray], y ++ [Ray.y ray])
       else if removeBlockedRaysCompletely then ([], [])
       else (x, y))
    rayList ([], []).

End OpticalPath.

(** ** The arithmetic of the code in doubles

    A Python float is an IEEE binary64 number: 53 bits of precision, every
    operation rounded to nearest, ties to even.  The formulas of [fan],
    [mul_matrix], [Lens], [Space] and [transferMatrix] are written once more
    on such numbers, to evaluate them as the code does. *)

Module Double.

Definition float : Set := spec_float.
Definition prec : Z := 53.
Definition emax : Z := 1024.

Definition add : float -> float -> float := SFadd prec emax.
Definition sub : float -> float -> float := SFsub prec emax.
Definition mul : float -> float -> float := SFmul prec emax.


(** [float(n)]; also what an [int] operand of a float operation becomes. *)
Definition of_int (n : Z) : float := binary_normalize prec emax n 0 false.

(** [float('+Inf')] *)
Definition inf : float := S754_infinity false.

(** [a / b] *)
Definition div (a b : float) : result float :=
  match b with
  | S754_zero _ => Raise ZeroDivisionError
  | _ => Ok (SFdiv prec emax a b)
  end.


(** A ray with its numbers as doubles ([Ray(y, theta, 0)] keeps the int
    [0], which is the double [of_int 0] as a number). *)
Record ray : Set := Ray {
  y : float;
  theta : float;
  z : float;
  isBlocked : bool
}.

Record matrix : Set := Matrix {
  A : float;
  B : float;
  C : float;
  D : float;
  L : float;
  apertureDiameter : float
}.

Definition fan (y radianMin radianMax : float) (N : Z) : result (list ray) :=
  for_ (range N)
    (fun i rays =>
       q <- div (mul (of_int i) (sub radianMax radianMin)) (of_int (N - 1)) ;;
       let theta := add radianMin q in
       Ok (rays ++ [Ray y theta (of_int 0) false]))
    [].

Definition mul_matrix (self rightSideMatrix : matrix) : matrix :=
  let a := add (mul (A self) (A rightSideMatrix)) (mul (B self) (C rightSideMatrix)) in
  let b := add (mul (A self) (B rightSideMatrix)) (mul (B self) (D rightSideMatrix)) in
  let c := add (mul (C self) (A rightSideMatrix)) (mul (D self) (C rightSideMatrix)) in
  let d := add (mul (C self) (B rightSideMatrix)) (mul (D self) (D rightSideMatrix)) in
  let l := add (L self) (L rightSideMatrix) in
  Matrix a b c d l inf.

Definition Lens (f diameter : float) : result matrix :=
  c <- div (of_int (-1)) f ;;
  Ok (Matrix (of_int 1) (of_int 0) c (of_int 1) (of_int 0) diameter).

Definition Space (d : float) : matrix :=
  Matrix (of_int 1) d (of_int 0) (of_int 1) d inf.

(** [transferMatrix] on a list of elements: [element*transferMatrix] is
    [element.mul_matrix(transferMatrix)]. *)
Definition transferMatrix (elements : list matrix) : matrix :=
  fold_left (fun transferMatrix element => mul_matrix element transferMatrix)
    elements
    (Matrix (of_int 1) (of_int 0) (of_int 0) (of_int 1) (of_int 0) inf).

(** [A*D - B*C] *)
Definition det (m : matrix) : float :=
  sub (mul (A m) (D m)) (mul (B m) (C m)).

End Double.

(** ** Notions used to state the properties *)

(** The trace the specification describes for [propagate]: the input ray,
    then the ray after each element in turn. *)
Fixpoint trace (elements : list Matrix.t) (ray : Ray.t) : list Ray.t :=
  match elements with
  | [] => [ray]
  | element :: rest => ray :: trace rest (Matrix.mul_ray element ray)
  end.

(** The determinant [A*D - B*C] of an element. *)
Definition det (m : Matrix.t) : Q :=
  Matrix.A m * Matrix.D m - Matrix.B m * Matrix.C m.

(** Elements built by the three constructors. *)
Inductive primitive : Matrix.t -> Prop :=
| primitive_Lens f diameter m : Lens f diameter = Ok m -> primitive m
| primitive_Space d : primitive (Space d)
| primitive_Aperture diameter : primitive (Aperture diameter).

(** Matrices obtained from them by any sequence of compositions. *)
Inductive composed : Matrix.t -> Prop :=
| composed_primitive m : primitive m -> composed m
| composed_mul m1 m2 :
    composed m1 -> composed m2 -> composed (Matrix.mul_matrix m1 m2).



(** Equality of two elements in A, B, C, D and L. *)
Definition same_ABCDL (m1 m2 : Matrix.t) : Prop :=
  Matrix.A m1 == Matrix.A m2 /\ Matrix.B m1 == Matrix.B m2 /\
  Matrix.C m1 == Matrix.C m2 /\ Matrix.D m1 == Matrix.D m2 /\
  Matrix.L m1 == Matrix.L m2.

(** [m] with another aperture diameter. *)
Definition with_aperture (a : number) (m : Matrix.t) : Matrix.t :=
  Matrix.init (Matrix.A m) (Matrix.B m) (Matrix.C m) (Matrix.D m) (Matrix.L m) a.

(** A path made by appending [ms], in this order, to a new [OpticalPath()]. *)
Definition path_of (ms : list Matrix.t) : OpticalPath.t :=
  fold_left OpticalPath.append ms OpticalPath.init.

(** Right-hand operands that are neither an element nor a ray. *)
Definition unrecognized (o : object) : bool :=
  match o with
  | OMatrix _ | ORay _ => false
  | _ => true
  end.

(** The ray [fan] builds at index [i]. *)
Definition fan_ray (y radianMin radianMax : Q) (N i : Z) : Ray.t :=
  Ray.Ray y (radianMin + inject_Z i * (radianMax - radianMin) / inject_Z (N - 1))
    0 false.

(** The height [fanGroup] gives to its group [j]. *)
Definition group_height (yMin yMax : Q) (M j : Z) : Q :=
  yMin + inject_Z j * (yMax - yMin) / inject_Z (M - 1).

(** The ray enters the element outside its aperture: [|y| > a/2]. *)
Definition clipped (element : Matrix.t) (ray : Ray.t) : Prop :=
  match Matrix.apertureDiameter element with
  | Finite d => d / 2 < Qabs (Ray.y ray)
  | PosInf => False
  end.

(** The line the output of [Matrix.__mul__] gets for an operand it does not
    recognize. *)
Definition unrecognized_line (o : object) : list object :=
  [OStr "Unrecognized right side element in multiply: "; o].

(** ** Loops, ranges and division *)

Lemma for_append {X Y : Type} (f : X -> Y) (body : X -> list Y -> result (list Y))
      (xs : list X) :
  (forall x s, In x xs -> body x s = Ok (s ++ [f x])) ->
  forall s, for_ xs body s = Ok (s ++ map f xs).
Proof.
  induction xs as [|x xs IH]; intros Hbody s; simpl.
  - now rewrite app_nil_r.
  - rewrite Hbody by now left. simpl.
    rewrite IH by (intros; apply Hbody; now right).
    now rewrite <- app_assoc.
Qed.

Lemma for_skip {X S : Type} (body : X -> S -> result S) (xs : list X) :
  (forall x s, In x xs -> body x s = Ok s) ->
  forall s, for_ xs body s = Ok s.
Proof.
  induction xs as [|x xs IH]; intros Hbody s; simpl; [reflexivity|].
  rewrite Hbody by now left. simpl. apply IH. intros; apply Hbody; now right.
Qed.

Lemma range_nonpos (N : Z) : (N <= 0)%Z -> range N = [].
Proof.
  intros H. unfold range. destruct N; try lia; reflexivity.
Qed.

Lemma range_pos (N : Z) :
  (1 <= N)%Z -> exists rest, range N = 0%Z :: rest.
Proof.
  intros H. unfold range.
  destruct (Z.to_nat N) as [|n] eqn:E; [lia|].
  simpl. now eexists.
Qed.

Lemma range_length (N : Z) : length (range N) = Z.to_nat N.
Proof.
  unfold range. now rewrite length_map, length_seq.
Qed.

Lemma range_nth_error (N : Z) (i : nat) :
  (i < Z.to_nat N)%nat -> nth_error (range N) i = Some (Z.of_nat i).
Proof.
  intros H. unfold range.
  rewrite nth_error_map, nth_error_seq.
  destruct (Nat.ltb_spec i (Z.to_nat N)); [reflexivity | lia].
Qed.

Lemma div_inject_Z (a : Q) (k : Z) :
  div a (inject_Z k) =
  if (k =? 0)%Z then Raise ZeroDivisionError else Ok (a / inject_Z k).
Proof.
  unfold div, Qeq_bool. simpl. now rewrite Z.mul_1_r.
Qed.

Lemma div_by_count (a : Q) (N : Z) :
  N <> 1%Z -> div a (inject_Z (N - 1)) = Ok (a / inject_Z (N - 1)).
Proof.
  intros H. rewrite div_inject_Z.
  destruct (Z.eqb_spec (N - 1) 0); [lia | reflexivity].
Qed.

Lemma div_by_zero_count (a : Q) : div a (inject_Z (1 - 1)) = Raise ZeroDivisionError.
Proof.
  now rewrite div_inject_Z.
Qed.

(** What [fan] returns for every count. *)
Lemma fan_cases (y radianMin radianMax : Q) (N : Z) :
  Ray.fan y radianMin radianMax N =
  if (N =? 1)%Z then Raise ZeroDivisionError
  else Ok (map (fan_ray y radianMin radianMax N) (range N)).
Proof.
  unfold Ray.fan. destruct (Z.eqb_spec N 1) as [->|Hne].
  - cbn. reflexivity.
  - apply (for_append (fan_ray y radianMin radianMax N)).
    intros i s _. now rewrite div_by_count.
Qed.

(** ** Dispatch of [*] and the propagation loop *)

Lemma mul_dispatch_ray (self : Matrix.t) (r : Ray.t) (out : stdout) :
  __mul__ self (ORay r) out = (ORay (Matrix.mul_ray self r), out).
Proof. reflexivity. Qed.

Lemma mul_dispatch_matrix (self m : Matrix.t) (out : stdout) :
  __mul__ self (OMatrix m) out = (OMatrix (Matrix.mul_matrix self m), out).
Proof. reflexivity. Qed.

Lemma map_ORay_inj (l1 l2 : list Ray.t) :
  map ORay l1 = map ORay l2 -> l1 = l2.
Proof.
  revert l2. induction l1 as [|r l1 IH]; intros [|r2 l2] H;
    try discriminate; [reflexivity|].
  injection H as -> H. f_equal. now apply IH.
Qed.

Lemma trace_head (elements : list Matrix.t) (ray : Ray.t) :
  trace elements ray = ray :: tl (trace elements ray).
Proof. destruct elements; reflexivity. Qed.

Lemma elements_path_from (ms : list Matrix.t) (p : OpticalPath.t) :
  OpticalPath.elements (fold_left OpticalPath.append ms p) =
  OpticalPath.elements p ++ ms.
Proof.
  revert p. induction ms as [|m ms IH]; intros p; simpl.
  - now rewrite app_nil_r.
  - rewrite IH. simpl. now rewrite <- app_assoc.
Qed.

Lemma elements_path_of (ms : list Matrix.t) :
  OpticalPath.elements (path_of ms) = ms.
Proof. unfold path_of. now rewrite elements_path_from. Qed.

Lemma propagate_loop (elements : list Matrix.t) :
  forall (ray : Ray.t) (outputRays : list object) (out : stdout),
  exists last,
    for_io elements
      (fun element '(ray, outputRays) out =>
         let (ray, out) := __mul__ element ray out in
         ((ray, outputRays ++ [ray]), out))
      (ORay ray, outputRays) out
    = ((last, outputRays ++ map ORay (tl (trace elements ray))), out).
Proof.
  induction elements as [|element rest IH]; intros ray outputRays out; simpl.
  - exists (ORay ray). now rewrite app_nil_r.
  - destruct (IH (Matrix.mul_ray element ray)
                 (outputRays ++ [ORay (Matrix.mul_ray element ray)]) out)
      as [last Hlast].
    exists last. rewrite Hlast, <- app_assoc.
    rewrite (trace_head rest (Matrix.mul_ray element ray)). reflexivity.
Qed.

Lemma propagate_trace (p : OpticalPath.t) (ray : Ray.t) (out : stdout) :
  OpticalPath.propagate p (ORay ray) out =
  (map ORay (trace (OpticalPath.elements p) ray), out).
Proof.
  unfold OpticalPath.propagate.
  destruct (propagate_loop (OpticalPath.elements p) ray [ORay ray] out)
    as [last ->].
  rewrite (trace_head (OpticalPath.elements p) ray). reflexivity.
Qed.

Lemma trace_length (elements : list Matrix.t) (ray : Ray.t) :
  length (trace elements ray) = S (length elements).
Proof.
  revert ray. induction elements as [|e es IH]; intros ray; simpl; auto.
Qed.

Lemma trace_first (elements : list Matrix.t) (ray : Ray.t) :
  nth_error (trace elements ray) 0 = Some ray.
Proof. destruct elements; reflexivity. Qed.

Lemma trace_step (elements : list Matrix.t) :
  forall (ray : Ray.t) (i : nat) (element : Matrix.t) (ri : Ray.t),
    nth_error elements i = Some element ->
    nth_error (trace elements ray) i = Some ri ->
    nth_error (trace elements ray) (S i) = Some (Matrix.mul_ray element ri).
Proof.
  induction elements as [|e es IH]; intros ray i element ri He Hr.
  - destruct i; discriminate.
  - destruct i as [|i]; simpl in *.
    + injection He as <-. injection Hr as <-. apply trace_first.
    + now apply IH.
Qed.

Lemma mul_ray_keeps_blocked (element : Matrix.t) (ray : Ray.t) :
  Ray.isBlocked ray = true ->
  Ray.isBlocked (Matrix.mul_ray element ray) = true.
Proof.
  intros H. unfold Matrix.mul_ray.
  destruct (gt _ _); simpl; [reflexivity | exact H].
Qed.

Lemma trace_all_blocked (elements : list Matrix.t) :
  forall ray, Ray.isBlocked ray = true ->
    Forall (fun r => Ray.isBlocked r = true) (trace elements ray).
Proof.
  induction elements as [|e es IH]; intros ray H; simpl.
  - now constructor.
  - constructor; [exact H|]. apply IH. now apply mul_ray_keeps_blocked.
Qed.

Lemma trace_blocked_later (elements : list Matrix.t) :
  forall (ray : Ray.t) (i j : nat) (ri rj : Ray.t),
    (i <= j)%nat ->
    nth_error (trace elements ray) i = Some ri ->
    nth_error (trace elements ray) j = Some rj ->
    Ray.isBlocked ri = true -> Ray.isBlocked rj = true.
Proof.
  induction elements as [|e es IH]; intros ray i j ri rj Hij Hi Hj Hb.
  - destruct i as [|i]; [|destruct i; discriminate].
    destruct j as [|j]; [|destruct j; discriminate].
    simpl in *. congruence.
  - destruct i as [|i].
    + simpl in Hi. injection Hi as <-.
      pose proof (trace_all_blocked (e :: es) ray Hb) as Hall.
      rewrite Forall_forall in Hall. apply Hall.
      eapply nth_error_In; eassumption.
    + destruct j as [|j]; [lia|]. simpl in Hi, Hj.
      apply (IH (Matrix.mul_ray e ray) i j ri rj); auto. lia.
Qed.

Lemma gt_Finite (x q : Q) : gt x (Finite q) = true <-> q < x.
Proof.
  simpl. rewrite negb_true_iff, <- not_true_iff_false, Qle_bool_iff.
  split; [apply Qnot_le_lt | apply Qlt_not_le].
Qed.

Lemma mul_ray_coordinates (element : Matrix.t) (ray : Ray.t) :
  Ray.y (Matrix.mul_ray element ray) =
    Matrix.A element * Ray.y ray + Matrix.B element * Ray.theta ray /\
  Ray.theta (Matrix.mul_ray element ray) =
    Matrix.C element * Ray.y ray + Matrix.D element * Ray.theta ray /\
  Ray.z (Matrix.mul_ray element ray) = Matrix.L element + Ray.z ray.
Proof.
  unfold Matrix.mul_ray. destruct (gt _ _); simpl; auto.
Qed.

(** ** Element transform and composition *)

(** C1.  [transform] (element [*] ray, dispatched to [mul_ray]) returns the
    ray with [y' = A*y + B*theta], [theta' = C*y + D*theta], [z' = L + z].
    The output is blocked when the height of the input ray exceeds half the
    aperture diameter of the element, [|y| > a/2]; otherwise it has the
    input ray's [isBlocked].  An infinite aperture is never exceeded. *)
Theorem mul_ray_transform (A B C D L : Q) (a : number)
        (y theta z : Q) (isBlocked : bool) (out : stdout) :
  exists blocked' : bool,
    __mul__ (Matrix.init A B C D L a) (ORay (Ray.Ray y theta z isBlocked)) out =
      (ORay (Ray.Ray (A * y + B * theta) (C * y + D * theta) (L + z) blocked'),
       out) /\
    Matrix.mul_ray (Matrix.init A B C D L a) (Ray.Ray y theta z isBlocked) =
      Ray.Ray (A * y + B * theta) (C * y + D * theta) (L + z) blocked' /\
    match a with
    | Finite d =>
        (d / 2 < Qabs y -> blocked' = true) /\
        (~ d / 2 < Qabs y -> blocked' = isBlocked)
    | PosInf => blocked' = isBlocked
    end.
Proof.
  rewrite mul_dispatch_ray. unfold Matrix.mul_ray. simpl.
  destruct a as [d|]; simpl half.
  - destruct (gt (Qabs y) (Finite (d / 2))) eqn:E.
    + exists true. repeat split; auto. intros Hn. exfalso. apply Hn.
      now apply gt_Finite.
    + exists isBlocked. repeat split; auto. intros Hlt.
      apply gt_Finite in Hlt. congruence.
  - exists isBlocked. now repeat split.
Qed.

Lemma mul_ray_transform_witness :
  Matrix.mul_ray (Aperture 2) (Ray.Ray (3 # 2) 0 (5 # 1) false) =
    Ray.Ray (1 * (3 # 2) + 0 * 0) (0 * (3 # 2) + 1 * 0) (0 + (5 # 1)) true /\
  Matrix.mul_ray (Aperture 2) (Ray.Ray (1 # 2) 0 (5 # 1) false) =
    Ray.Ray (1 * (1 # 2) + 0 * 0) (0 * (1 # 2) + 1 * 0) (0 + (5 # 1)) false.
Proof.
  split.
  - destruct (mul_ray_transform 1 0 0 1 0 (Finite 2) (3 # 2) 0 (5 # 1) false [])
      as [b [_ [H [Hgt _]]]].
    rewrite (Hgt eq_refl) in H. exact H.
  - destruct (mul_ray_transform 1 0 0 1 0 (Finite 2) (1 # 2) 0 (5 # 1) false [])
      as [b [_ [H [_ Hle]]]].
    rewrite (Hle ltac:(discriminate)) in H. exact H.
Defined.

(** C2.  A ray that is already blocked stays blocked through [transform],
    whatever the element and its aperture; so in the trace that [propagate]
    returns, every state after a blocked state is blocked. *)
Theorem blocking_is_sticky (element : Matrix.t) (ray : Ray.t)
        (p : OpticalPath.t) (inputRay : Ray.t) (out : stdout) :
  (Ray.isBlocked ray = true ->
   Ray.isBlocked (Matrix.mul_ray element ray) = true) /\
  exists rays : list Ray.t,
    OpticalPath.propagate p (ORay inputRay) out = (map ORay rays, out) /\
    forall (i j : nat) (ri rj : Ray.t),
      (i <= j)%nat ->
      nth_error rays i = Some ri -> nth_error rays j = Some rj ->
      Ray.isBlocked ri = true -> Ray.isBlocked rj = true.
Proof.
  split.
  - apply mul_ray_keeps_blocked.
  - exists (trace (OpticalPath.elements p) inputRay). split.
    + apply propagate_trace.
    + apply trace_blocked_later.
Qed.

Lemma blocking_is_sticky_witness :
  Ray.isBlocked (Matrix.mul_ray (Space 10) (Ray.Ray (3 # 2) 0 0 true)) = true /\
  exists rays : list Ray.t,
    OpticalPath.propagate (path_of [Space 2; Aperture 2; Space 18; Aperture 100])
      (ORay (Ray.Ray (3 # 2) 0 0 false)) [] = (map ORay rays, []) /\
    forall rj : Ray.t, nth_error rays 4 = Some rj -> Ray.isBlocked rj = true.
Proof.
  destruct (blocking_is_sticky (Space 10) (Ray.Ray (3 # 2) 0 0 true)
              (path_of [Space 2; Aperture 2; Space 18; Aperture 100])
              (Ray.Ray (3 # 2) 0 0 false) [])
    as [Hstep [rays [Hrun Hlater]]].
  split.
  - apply Hstep. reflexivity.
  - exists rays. split; [exact Hrun|].
    intros rj Hj.
    rewrite propagate_trace, elements_path_of in Hrun.
    pose proof (f_equal fst Hrun) as Hrays. unfold fst in Hrays.
    apply map_ORay_inj in Hrays.
    refine (Hlater 2%nat 4%nat _ rj _ _ Hj _).
    + lia.
    + rewrite <- Hrays. reflexivity.
    + reflexivity.
Defined.


(** ** OpticalPath *)

(** C4.  On a path made of [n] appended elements, [propagate] returns the
    trace of [n+1] rays: the input ray first, then, in append order, the
    [transform] of the previous ray by each element.  Nothing is printed.
    A blocked ray is transformed like any other: its [y], [theta] and [z]
    are those of [transform], and it stays flagged. *)
Theorem propagate_returns_trace (ms : list Matrix.t) (inputRay : Ray.t)
        (out : stdout) :
  OpticalPath.elements (path_of ms) = ms /\
  exists rays : list Ray.t,
    OpticalPath.propagate (path_of ms) (ORay inputRay) out = (map ORay rays, out) /\
    length rays = S (length ms) /\
    nth_error rays 0 = Some inputRay /\
    (forall (i : nat) (element : Matrix.t) (ri : Ray.t),
        nth_error ms i = Some element -> nth_error rays i = Some ri ->
        nth_error rays (S i) = Some (Matrix.mul_ray element ri)) /\
    (forall (i : nat) (element : Matrix.t) (ri : Ray.t),
        nth_error ms i = Some element -> nth_error rays i = Some ri ->
        Ray.isBlocked ri = true ->
        exists ri' : Ray.t,
          nth_error rays (S i) = Some ri' /\
          Ray.y ri' = Matrix.A element * Ray.y ri + Matrix.B element * Ray.theta ri /\
          Ray.theta ri' = Matrix.C element * Ray.y ri + Matrix.D element * Ray.theta ri /\
          Ray.z ri' = Matrix.L element + Ray.z ri /\
          Ray.isBlocked ri' = true).
Proof.
  split; [apply elements_path_of|].
  exists (trace ms inputRay).
  rewrite propagate_trace, elements_path_of.
  split; [reflexivity|]. split; [apply trace_length|].
  split; [apply trace_first|]. split.
  - intros i element ri. apply trace_step.
  - intros i element ri He Hr Hb.
    exists (Matrix.mul_ray element ri).
    split; [now apply trace_step|].
    destruct (mul_ray_coordinates element ri) as [Hy [Ht Hz]].
    repeat split; auto. now apply mul_ray_keeps_blocked.
Qed.

Lemma propagate_returns_trace_witness :
  exists rays : list Ray.t,
    OpticalPath.propagate (path_of [Space 2; Aperture 2; Space 18])
      (ORay (Ray.Ray (3 # 2) (1 # 10) 0 false)) [] = (map ORay rays, []) /\
    length rays = 4%nat /\
    exists r3 : Ray.t,
      nth_error rays 3 = Some r3 /\ Ray.z r3 = 18 + (0 + (2 + 0)) /\
      Ray.isBlocked r3 = true.
Proof.
  destruct (propagate_returns_trace [Space 2; Aperture 2; Space 18]
              (Ray.Ray (3 # 2) (1 # 10) 0 false) [])
    as [_ [rays [Hrun [Hlen [H0 [Hstep Hblocked]]]]]].
  exists rays. split; [exact Hrun|]. split; [exact Hlen|].
  pose proof (Hstep 0%nat (Space 2) _ eq_refl H0) as H1.
  pose proof (Hstep 1%nat (Aperture 2) _ eq_refl H1) as H2.
  destruct (Hblocked 2%nat (Space 18) _ eq_refl H2 eq_refl)
    as [r3 [H3 [_ [_ [Hz Hb]]]]].
  exists r3. split; [exact H3|]. split; [exact Hz | exact Hb].
Defined.

(** In exact arithmetic the determinant of a product is the product of the
    determinants, so that every composition of lenses, spaces and apertures
    has determinant 1.  The doubles of the code do not keep this law, as
    the second demo path of the module shows below. *)
Lemma det_mul_matrix (m1 m2 : Matrix.t) :
  det (Matrix.mul_matrix m1 m2) == det m1 * det m2.
Proof. unfold det. simpl. ring. Qed.

Lemma det_primitive (m : Matrix.t) : primitive m -> det m == 1.
Proof.
  intros [f diameter m' H | d | diameter].
  - unfold Lens, div in H. destruct (Qeq_bool f 0); [discriminate|].
    simpl in H. injection H as <-. unfold det. simpl. ring.
  - unfold det. simpl. ring.
  - unfold det. simpl. ring.
Qed.

Lemma det_composed (m : Matrix.t) : composed m -> det m == 1.
Proof.
  induction 1 as [m H | m1 m2 _ IH1 _ IH2].
  - now apply det_primitive.
  - rewrite det_mul_matrix, IH1, IH2. ring.
Qed.

Lemma transferMatrix_loop (elements : list Matrix.t) :
  forall (acc : Matrix.t) (out : stdout),
    for_io elements (fun element transferMatrix => __mul__ element transferMatrix)
      (OMatrix acc) out =
    (OMatrix (fold_left (fun t element => Matrix.mul_matrix element t) elements acc),
     out).
Proof.
  induction elements as [|e es IH]; intros acc out; simpl; [reflexivity|].
  apply IH.
Qed.












(** C6.  Composing an element [M] with the identity element
    (A=1, B=0, C=0, D=1, L=0) on the left or on the right yields an element
    with the A, B, C, D and L of [M].  The aperture diameter of [M] plays no
    part: [mul_matrix] builds a new element and assigns nothing on its
    operands, the result is the same whatever the aperture diameter of [M],
    and the new element has the default aperture [+Inf]. *)
Theorem identity_composition (M : Matrix.t) (a a' : number) :
  same_ABCDL (Matrix.mul_matrix (Matrix.init 1 0 0 1 0 a) M) M /\
  same_ABCDL (Matrix.mul_matrix M (Matrix.init 1 0 0 1 0 a)) M /\
  Matrix.mul_matrix (Matrix.init 1 0 0 1 0 a) (with_aperture a' M) =
    Matrix.mul_matrix (Matrix.init 1 0 0 1 0 a) M /\
  Matrix.mul_matrix (with_aperture a' M) (Matrix.init 1 0 0 1 0 a) =
    Matrix.mul_matrix M (Matrix.init 1 0 0 1 0 a) /\
  Matrix.apertureDiameter (Matrix.mul_matrix (Matrix.init 1 0 0 1 0 a) M) = PosInf /\
  Matrix.apertureDiameter (Matrix.mul_matrix M (Matrix.init 1 0 0 1 0 a)) = PosInf.
Proof.
  unfold same_ABCDL. simpl. repeat split; try reflexivity; ring.
Qed.

(** ** Ray fans *)




Lemma fanGroup_empty (yMin yMax : Q) (M : Z) (radianMin radianMax : Q) (N : Z) :
  (M <= 0 \/ N <= 0)%Z ->
  Ray.fanGroup yMin yMax M radianMin radianMax N = Ok [].
Proof.
  intros [HM | HN]; unfold Ray.fanGroup.
  - now rewrite (range_nonpos M HM).
  - rewrite (range_nonpos N HN). now apply for_skip.
Qed.

Lemma fanGroup_raises (yMin yMax : Q) (M : Z) (radianMin radianMax : Q) (N : Z) :
  (1 <= M)%Z -> (1 <= N)%Z -> (N = 1 \/ M = 1)%Z ->
  Ray.fanGroup yMin yMax M radianMin radianMax N = Raise ZeroDivisionError.
Proof.
  intros HM HN Hone. unfold Ray.fanGroup.
  destruct (range_pos M HM) as [restM ->].
  destruct (range_pos N HN) as [restN ->].
  cbn [for_]. rewrite div_inject_Z.
  destruct (Z.eqb_spec (N - 1) 0) as [|HN1]; [reflexivity|].
  cbn [bind]. rewrite div_inject_Z.
  destruct (Z.eqb_spec (M - 1) 0) as [|HM1]; [reflexivity | lia].
Qed.

(** ** Errors *)

(** C8, as the code has it.  When the right-hand operand of [*] is neither
    an element nor a ray, [__mul__] raises nothing: it prints the message
    "Unrecognized right side element in multiply: " followed by the operand,
    and returns [None]. *)
Theorem mul_unrecognized_prints (self : Matrix.t) (rightSide : object)
        (out : stdout) :
  unrecognized rightSide = true ->
  __mul__ self rightSide out =
  (ONone,
   out ++ [[OStr "Unrecognized right side element in multiply: "; rightSide]]).
Proof.
  destruct rightSide; intros H; try discriminate H; reflexivity.
Qed.

Lemma mul_unrecognized_prints_witness :
  __mul__ (Space 10) (OFloat (5 # 2)) [] =
  (ONone,
   [[OStr "Unrecognized right side element in multiply: "; OFloat (5 # 2)]]).
Proof.
  apply (mul_unrecognized_prints (Space 10) (OFloat (5 # 2)) []). reflexivity.
Defined.

(** C8 fails: an element times the integer 7 returns [None] to the caller,
    after one line of output; no error reaches the caller. *)
Lemma mul_int_returns_None :
  __mul__ (Aperture 3) (OInt 7) [] =
  (ONone, [[OStr "Unrecognized right side element in multiply: "; OInt 7]]).
Proof. reflexivity. Qed.

(** C9, as the code has it.  For a count below 2 there is no error of the
    code's own.  [fan] raises the [ZeroDivisionError] of the division by
    [count-1] when the count is 1 and returns the empty list when it is 0 or
    less.  [fanGroup] does the same with either of its counts below 2: it
    raises [ZeroDivisionError] when that count is 1 and the other count is
    at least 1, and returns the empty list otherwise. *)
Theorem fan_degenerate_count (y yMin yMax radianMin radianMax : Q)
        (count other : Z) :
  (count < 2)%Z ->
  Ray.fan y radianMin radianMax count =
    (if (count =? 1)%Z then Raise ZeroDivisionError else Ok []) /\
  Ray.fanGroup yMin yMax other radianMin radianMax count =
    (if ((count =? 1) && (1 <=? other))%Z then Raise ZeroDivisionError else Ok []) /\
  Ray.fanGroup yMin yMax count radianMin radianMax other =
    (if ((count =? 1) && (1 <=? other))%Z then Raise ZeroDivisionError else Ok []).
Proof.
  intros Hlt.
  destruct (Z.eqb_spec count 1) as [->|Hne]; cbn [andb].
  - split; [reflexivity|].
    destruct (Z.leb_spec 1 other) as [Hother|Hother].
    + split; apply fanGroup_raises; auto; lia.
    + split; apply fanGroup_empty; lia.
  - split.
    + rewrite fan_cases. destruct (Z.eqb_spec count 1); [lia|].
      now rewrite (range_nonpos count) by lia.
    + split; apply fanGroup_empty; lia.
Qed.

Lemma fan_degenerate_count_witness :
  Ray.fan 1 (-1 # 10) (1 # 10) 1 = Raise ZeroDivisionError /\
  Ray.fanGroup (-1 # 2) (1 # 2) 3 (-1 # 10) (1 # 10) 1 = Raise ZeroDivisionError /\
  Ray.fanGroup (-1 # 2) (1 # 2) 1 (-1 # 10) (1 # 10) 3 = Raise ZeroDivisionError.
Proof.
  apply (fan_degenerate_count 1 (-1 # 2) (1 # 2) (-1 # 10) (1 # 10) 1 3). lia.
Defined.

(** C9 fails: with a count of 1 the caller gets the raw
    [ZeroDivisionError], and with a count of 0 no error at all. *)
Lemma fan_count_below_two :
  Ray.fan 1 (-1 # 10) (1 # 10) 1 = Raise ZeroDivisionError /\
  Ray.fan 1 (-1 # 10) (1 # 10) 0 = Ok [] /\
  Ray.fanGroup (-1 # 2) (1 # 2) 1 (-1 # 10) (1 # 10) 10 = Raise ZeroDivisionError /\
  Ray.fanGroup (-1 # 2) (1 # 2) 0 (-1 # 10) (1 # 10) 10 = Ok [].
Proof. repeat split. Qed.

(** C10.  [fan] with count 0 returns the empty list and raises nothing;
    [fan] raises (and then it is a [ZeroDivisionError]) exactly when the
    count is 1; [fanGroup] with a height count of 0 returns the empty list
    and raises nothing. *)
Theorem fan_zero_and_one (y yMin yMax radianMin radianMax : Q) (N : Z) :
  Ray.fan y radianMin radianMax 0 = Ok [] /\
  (Ray.fan y radianMin radianMax N = Raise ZeroDivisionError <-> N = 1%Z) /\
  ((exists e : exn, Ray.fan y radianMin radianMax N = Raise e) <-> N = 1%Z) /\
  Ray.fanGroup yMin yMax 0 radianMin radianMax N = Ok [].
Proof.
  split; [reflexivity|].
  split; [|split].
  - rewrite fan_cases.
    destruct (Z.eqb_spec N 1); split; intros H; congruence.
  - rewrite fan_cases.
    destruct (Z.eqb_spec N 1); split; intros H; try congruence.
    + now exists ZeroDivisionError.
    + destruct H as [e He]. discriminate.
  - apply fanGroup_empty. lia.
Qed.

(** * Further properties of the code *)

(** ** Fan groups *)

Lemma for_append_list {X Y : Type} (g : X -> list Y)
      (body : X -> list Y -> result (list Y)) (xs : list X) :
  (forall x s, In x xs -> body x s = Ok (s ++ g x)) ->
  forall s, for_ xs body s = Ok (s ++ flat_map g xs).
Proof.
  induction xs as [|x xs IH]; intros Hbody s; simpl.
  - now rewrite app_nil_r.
  - rewrite Hbody by now left. simpl.
    rewrite IH by (intros; apply Hbody; now right).
    now rewrite <- app_assoc.
Qed.

Lemma flat_map_concat_map {X Y : Type} (g : X -> list Y) (xs : list X) :
  flat_map g xs = concat (map g xs).
Proof.
  induction xs as [|x xs IH]; simpl; [reflexivity | now rewrite IH].
Qed.

(** What [fanGroup] returns when no division fails. *)
Lemma fanGroup_ok (yMin yMax : Q) (M : Z) (radianMin radianMax : Q) (N : Z) :
  M <> 1%Z -> N <> 1%Z ->
  Ray.fanGroup yMin yMax M radianMin radianMax N =
  Ok (flat_map
        (fun j => map (fan_ray (group_height yMin yMax M j) radianMin radianMax N)
                      (range N))
        (range M)).
Proof.
  intros HM HN. unfold Ray.fanGroup.
  apply (for_append_list
           (fun j => map (fan_ray (group_height yMin yMax M j) radianMin radianMax N)
                         (range N))).
  intros j s _.
  apply (for_append (fan_ray (group_height yMin yMax M j) radianMin radianMax N)).
  intros i s' _. now rewrite !div_by_count.
Qed.

Lemma nth_error_blocks {X Y : Type} (g : X -> list Y) (n : nat) (xs : list X) :
  (forall x, In x xs -> length (g x) = n) ->
  forall (j i : nat) (x : X),
    nth_error xs j = Some x -> (i < n)%nat ->
    nth_error (flat_map g xs) (j * n + i) = nth_error (g x) i.
Proof.
  induction xs as [|x0 xs IH]; intros Hlen j i x Hj Hi.
  - destruct j; discriminate.
  - simpl. destruct j as [|j]; simpl in Hj.
    + injection Hj as ->. simpl.
      rewrite nth_error_app1; [reflexivity|].
      rewrite Hlen by now left. exact Hi.
    + rewrite nth_error_app2 by (rewrite Hlen by (now left); simpl; lia).
      rewrite Hlen by now left.
      replace (S j * n + i - n)%nat with (j * n + i)%nat by (simpl; lia).
      apply IH; auto. intros; apply Hlen; now right.
Qed.

Lemma length_blocks {X Y : Type} (g : X -> list Y) (n : nat) (xs : list X) :
  (forall x, In x xs -> length (g x) = n) ->
  length (flat_map g xs) = (length xs * n)%nat.
Proof.
  induction xs as [|x0 xs IH]; intros Hlen; simpl; [reflexivity|].
  rewrite length_app, Hlen by now left.
  rewrite IH by (intros; apply Hlen; now right). reflexivity.
Qed.

(** X1.  With both counts at least 2, [fanGroup] returns [M*N] rays grouped
    by height: the ray at index [j*N + i] has the height number [j],
    [yMin + j*(yMax-yMin)/(M-1)], and the angle number [i],
    [radianMin + i*(radianMax-radianMin)/(N-1)], with [z = 0] and not
    blocked. *)
Theorem fanGroup_grid (yMin yMax : Q) (M : Z) (radianMin radianMax : Q) (N : Z) :
  (2 <= M)%Z -> (2 <= N)%Z ->
  exists rays : list Ray.t,
    Ray.fanGroup yMin yMax M radianMin radianMax N = Ok rays /\
    Z.of_nat (length rays) = (M * N)%Z /\
    forall j i : nat,
      (Z.of_nat j < M)%Z -> (Z.of_nat i < N)%Z ->
      nth_error rays (j * Z.to_nat N + i) =
      Some (Ray.Ray
              (yMin + inject_Z (Z.of_nat j) * (yMax - yMin) / inject_Z (M - 1))
              (radianMin + inject_Z (Z.of_nat i) * (radianMax - radianMin)
                           / inject_Z (N - 1))
              0 false).
Proof.
  intros HM HN. eexists. split; [apply fanGroup_ok; lia|].
  assert (Hblock : forall j : Z, In j (range M) ->
            length (map (fan_ray (group_height yMin yMax M j) radianMin radianMax N)
                        (range N)) = Z.to_nat N).
  { intros j _. now rewrite length_map, range_length. }
  split.
  - rewrite (length_blocks _ (Z.to_nat N)) by exact Hblock.
    rewrite range_length. nia.
  - intros j i Hj Hi.
    rewrite (nth_error_blocks _ (Z.to_nat N) (range M) Hblock j i (Z.of_nat j));
      [| apply range_nth_error; lia | lia].
    rewrite nth_error_map, range_nth_error by lia. reflexivity.
Qed.

Lemma fanGroup_grid_witness :
  exists rays : list Ray.t,
    Ray.fanGroup (-1 # 2) (1 # 2) 3 (-1 # 4) (1 # 4) 2 = Ok rays /\
    Z.of_nat (length rays) = (3 * 2)%Z /\
    nth_error rays (2 * Z.to_nat 2 + 1) =
      Some (Ray.Ray
              ((-1 # 2) + inject_Z (Z.of_nat 2) * ((1 # 2) - (-1 # 2)) / inject_Z (3 - 1))
              ((-1 # 4) + inject_Z (Z.of_nat 1) * ((1 # 4) - (-1 # 4)) / inject_Z (2 - 1))
              0 false).
Proof.
  destruct (fanGroup_grid (-1 # 2) (1 # 2) 3 (-1 # 4) (1 # 4) 2
              ltac:(lia) ltac:(lia))
    as [rays [Hrun [Hlen Hnth]]].
  exists rays. split; [exact Hrun|]. split; [exact Hlen|].
  apply (Hnth 2%nat 1%nat); simpl; lia.
Defined.

(** X2.  With a height count other than 1 and an angle count other than 1,
    [fanGroup] returns the concatenation, in the order of the heights, of
    the lists that [fan] returns for each height; [fan] raises for none of
    them. *)
Theorem fanGroup_concat_fans (yMin yMax : Q) (M : Z) (radianMin radianMax : Q)
        (N : Z) :
  M <> 1%Z -> N <> 1%Z ->
  exists fans : list (list Ray.t),
    Ray.fanGroup yMin yMax M radianMin radianMax N = Ok (concat fans) /\
    length fans = Z.to_nat M /\
    forall (j : nat) (f : list Ray.t),
      nth_error fans j = Some f ->
      Ray.fan (yMin + inject_Z (Z.of_nat j) * (yMax - yMin) / inject_Z (M - 1))
              radianMin radianMax N = Ok f.
Proof.
  intros HM HN.
  exists (map (fun j => map (fan_ray (group_height yMin yMax M j)
                                     radianMin radianMax N) (range N))
              (range M)).
  split; [|split].
  - rewrite <- flat_map_concat_map. now apply fanGroup_ok.
  - now rewrite length_map, range_length.
  - intros j f Hf. rewrite nth_error_map in Hf.
    assert (Hj : (j < Z.to_nat M)%nat).
    { destruct (Nat.lt_ge_cases j (Z.to_nat M)) as [|Hge]; [assumption|].
      rewrite <- range_length in Hge. apply nth_error_None in Hge.
      rewrite Hge in Hf. discriminate. }
    rewrite range_nth_error in Hf by exact Hj. simpl in Hf.
    injection Hf as <-. rewrite fan_cases.
    destruct (Z.eqb_spec N 1); [contradiction | reflexivity].
Qed.

Lemma fanGroup_concat_fans_witness :
  exists fans : list (list Ray.t),
    Ray.fanGroup (-1 # 2) (1 # 2) 3 (-1 # 4) (1 # 4) 2 = Ok (concat fans) /\
    length fans = 3%nat.
Proof.
  destruct (fanGroup_concat_fans (-1 # 2) (1 # 2) 3 (-1 # 4) (1 # 4) 2
              ltac:(lia) ltac:(lia))
    as [fans [Hrun [Hlen _]]].
  exists fans. split; [exact Hrun | exact Hlen].
Defined.

(** X3.  [fanGroup] raises, and then a [ZeroDivisionError], exactly when
    both counts are at least 1 and one of them is 1.  With a count of 0 or
    less it returns the empty list. *)
Theorem fanGroup_raises_iff (yMin yMax : Q) (M : Z) (radianMin radianMax : Q)
        (N : Z) :
  ((exists e : exn, Ray.fanGroup yMin yMax M radianMin radianMax N = Raise e) <->
   (1 <= M /\ 1 <= N /\ (M = 1 \/ N = 1))%Z) /\
  ((M <= 0 \/ N <= 0)%Z ->
   Ray.fanGroup yMin yMax M radianMin radianMax N = Ok []).
Proof.
  split; [|apply fanGroup_empty].
  split.
  - intros [e He].
    destruct (Z.le_gt_cases M 0) as [HM|HM];
      [rewrite fanGroup_empty in He by lia; discriminate|].
    destruct (Z.le_gt_cases N 0) as [HN|HN];
      [rewrite fanGroup_empty in He by lia; discriminate|].
    destruct (Z.eq_dec M 1) as [|HM1]; [lia|].
    destruct (Z.eq_dec N 1) as [|HN1]; [lia|].
    rewrite fanGroup_ok in He by assumption. discriminate.
  - intros [HM [HN Hone]]. exists ZeroDivisionError.
    apply fanGroup_raises; auto. lia.
Qed.

Lemma fanGroup_raises_iff_witness :
  (exists e : exn, Ray.fanGroup (-1 # 2) (1 # 2) 1 (-1 # 4) (1 # 4) 10 = Raise e) /\
  Ray.fanGroup (-1 # 2) (1 # 2) 3 (-1 # 4) (1 # 4) 0 = Ok [].
Proof.
  split.
  - apply (fanGroup_raises_iff (-1 # 2) (1 # 2) 1 (-1 # 4) (1 # 4) 10). lia.
  - apply (fanGroup_raises_iff (-1 # 2) (1 # 2) 3 (-1 # 4) (1 # 4) 0). lia.
Defined.

(** ** Propagation of several rays, of other values, and along longer paths *)

Lemma propagateMany_loop (p : OpticalPath.t) (rays : list Ray.t) :
  forall (output : list (list object)) (out : stdout),
    for_io (map ORay rays)
      (fun inputRay output out =>
         let ray := inputRay in
         let outputRays := [ray] in
         let (s, out') :=
           for_io (OpticalPath.elements p)
             (fun element '(ray, outputRays) out =>
                let (ray, out) := __mul__ element ray out in
                ((ray, outputRays ++ [ray]), out))
             (ray, outputRays) out in
         (output ++ [snd s], out'))
      output out =
    (output ++ map (fun r => map ORay (trace (OpticalPath.elements p) r)) rays,
     out).
Proof.
  induction rays as [|r rays IH]; intros output out; simpl.
  - now rewrite app_nil_r.
  - destruct (propagate_loop (OpticalPath.elements p) r [ORay r] out)
      as [last ->].
    cbn [snd]. rewrite IH, <- app_assoc.
    rewrite (trace_head (OpticalPath.elements p) r). reflexivity.
Qed.

(** X4.  [propagateMany] on a list of rays returns one trace per input ray,
    in the order of the input; each trace is the one [propagate] returns for
    that ray alone, and nothing is printed. *)
Theorem propagateMany_traces (p : OpticalPath.t) (rays : list Ray.t)
        (out : stdout) :
  exists traces : list (list object),
    OpticalPath.propagateMany p (map ORay rays) out = (traces, out) /\
    length traces = length rays /\
    forall (i : nat) (r : Ray.t),
      nth_error rays i = Some r ->
      exists t : list object,
        nth_error traces i = Some t /\
        OpticalPath.propagate p (ORay r) out = (t, out).
Proof.
  exists (map (fun r => map ORay (trace (OpticalPath.elements p) r)) rays).
  split; [|split].
  - unfold OpticalPath.propagateMany. now rewrite propagateMany_loop.
  - apply length_map.
  - intros i r Hr. eexists. split.
    + rewrite nth_error_map, Hr. reflexivity.
    + apply propagate_trace.
Qed.

Lemma propagateMany_traces_witness :
  exists traces : list (list object),
    OpticalPath.propagateMany (path_of [Space 2; Aperture 2])
      (map ORay [Ray.Ray (3 # 2) 0 0 false; Ray.Ray (1 # 2) 0 0 false]) [] =
      (traces, []) /\
    exists t : list object,
      nth_error traces 1 = Some t /\
      OpticalPath.propagate (path_of [Space 2; Aperture 2])
        (ORay (Ray.Ray (1 # 2) 0 0 false)) [] = (t, []).
Proof.
  destruct (propagateMany_traces (path_of [Space 2; Aperture 2])
              [Ray.Ray (3 # 2) 0 0 false; Ray.Ray (1 # 2) 0 0 false] [])
    as [traces [Hrun [_ Hnth]]].
  exists traces. split; [exact Hrun|].
  apply (Hnth 1%nat). reflexivity.
Defined.

Lemma trace_app (ms1 ms2 : list Matrix.t) :
  forall r : Ray.t,
  exists last : Ray.t,
    nth_error (trace ms1 r) (length ms1) = Some last /\
    trace (ms1 ++ ms2) r = trace ms1 r ++ tl (trace ms2 last).
Proof.
  induction ms1 as [|e es IH]; intros r; simpl.
  - exists r. split; [reflexivity|]. apply trace_head.
  - destruct (IH (Matrix.mul_ray e r)) as [last [Hlast Happ]].
    exists last. split; [exact Hlast|]. now rewrite Happ.
Qed.

(** X5.  Propagating a ray along a path that continues [ms1] with [ms2]
    gives the trace along [ms1] followed by the trace along [ms2] of the
    last state of the first one (that state is not repeated): appending
    elements never changes the states already traced. *)
Theorem propagate_longer_path (ms1 ms2 : list Matrix.t) (r : Ray.t)
        (out : stdout) :
  exists (rays1 : list Ray.t) (last : Ray.t) (rays2 : list Ray.t),
    OpticalPath.propagate (path_of ms1) (ORay r) out = (map ORay rays1, out) /\
    nth_error rays1 (length ms1) = Some last /\
    OpticalPath.propagate (path_of ms2) (ORay last) out =
      (map ORay (last :: rays2), out) /\
    OpticalPath.propagate (path_of (ms1 ++ ms2)) (ORay r) out =
      (map ORay (rays1 ++ rays2), out).
Proof.
  destruct (trace_app ms1 ms2 r) as [last [Hlast Happ]].
  exists (trace ms1 r), last, (tl (trace ms2 last)).
  rewrite !propagate_trace, !elements_path_of, Happ, <- trace_head.
  repeat split. exact Hlast.
Qed.

Lemma mul_unrecognized_line (self : Matrix.t) (o : object) (out : stdout) :
  unrecognized o = true ->
  __mul__ self o out = (ONone, out ++ [unrecognized_line o]).
Proof.
  destruct o; intros H; try discriminate H; reflexivity.
Qed.

Lemma propagate_None_loop (elements : list Matrix.t) :
  forall (outputRays : list object) (out : stdout),
    for_io elements
      (fun element '(ray, outputRays) out =>
         let (ray, out) := __mul__ element ray out in
         ((ray, outputRays ++ [ray]), out))
      (ONone, outputRays) out =
    ((ONone, outputRays ++ repeat ONone (length elements)),
     out ++ repeat (unrecognized_line ONone) (length elements)).
Proof.
  induction elements as [|e es IH]; intros outputRays out; simpl.
  - now rewrite !app_nil_r.
  - rewrite IH, <- !app_assoc. reflexivity.
Qed.

(** X6.  [propagate] accepts an input that is neither a ray nor an element
    and raises nothing: the trace it returns is the input followed by one
    [None] per element, and every element prints one line, the first one
    with the input and the later ones with [None]. *)
Theorem propagate_unrecognized (p : OpticalPath.t) (inputRay : object)
        (out : stdout) :
  unrecognized inputRay = true ->
  OpticalPath.propagate p inputRay out =
  (inputRay :: repeat ONone (length (OpticalPath.elements p)),
   out ++
   match OpticalPath.elements p with
   | [] => []
   | _ :: rest =>
       unrecognized_line inputRay :: repeat (unrecognized_line ONone) (length rest)
   end).
Proof.
  intros H. unfold OpticalPath.propagate.
  destruct (OpticalPath.elements p) as [|e es].
  - simpl. now rewrite app_nil_r.
  - cbn [for_io].
    rewrite (mul_unrecognized_line e inputRay out H).
    rewrite propagate_None_loop, <- !app_assoc. reflexivity.
Qed.

Lemma propagate_unrecognized_witness :
  OpticalPath.propagate (path_of [Space 2; Aperture 2; Space 1]) (OInt 7) [] =
  ([OInt 7; ONone; ONone; ONone],
   [unrecognized_line (OInt 7); unrecognized_line ONone; unrecognized_line ONone]).
Proof.
  apply (propagate_unrecognized (path_of [Space 2; Aperture 2; Space 1])
                                (OInt 7) []).
  reflexivity.
Defined.

(** ** The transfer matrix of a path *)

Lemma mul_ray_unbounded (m : Matrix.t) (r : Ray.t) :
  Matrix.apertureDiameter m = PosInf ->
  Ray.isBlocked (Matrix.mul_ray m r) = Ray.isBlocked r.
Proof.
  intros H. unfold Matrix.mul_ray. rewrite H. reflexivity.
Qed.

Lemma transfer_fold_aperture (ms : list Matrix.t) :
  forall acc : Matrix.t,
    Matrix.apertureDiameter acc = PosInf ->
    Matrix.apertureDiameter
      (fold_left (fun t element => Matrix.mul_matrix element t) ms acc) = PosInf.
Proof.
  induction ms as [|e es IH]; intros acc H; simpl; [exact H|].
  now apply IH.
Qed.

(** X8.  The matrix that [transferMatrix] returns has the default aperture
    [+Inf], whatever the apertures of the elements of the path: applied to
    a ray it never sets [isBlocked], also where [propagate] along the same
    path blocks the ray. *)
Theorem transferMatrix_never_blocks (ms : list Matrix.t) (r : Ray.t)
        (out : stdout) :
  exists t : Matrix.t,
    OpticalPath.transferMatrix (path_of ms) out = (OMatrix t, out) /\
    Matrix.apertureDiameter t = PosInf /\
    Ray.isBlocked (Matrix.mul_ray t r) = Ray.isBlocked r.
Proof.
  eexists. unfold OpticalPath.transferMatrix.
  rewrite transferMatrix_loop, elements_path_of.
  split; [reflexivity|].
  assert (H : Matrix.apertureDiameter
                (fold_left (fun t element => Matrix.mul_matrix element t) ms
                           (Matrix.init 1 0 0 1 0 PosInf)) = PosInf)
    by now apply transfer_fold_aperture.
  split; [exact H | now apply mul_ray_unbounded].
Qed.

(** ** Positions along the axis *)

Lemma nth_error_Some_lt' {X : Type} (l : list X) (k : nat) (x : X) :
  nth_error l k = Some x -> (k < length l)%nat.
Proof.
  intros H. apply nth_error_Some. congruence.
Qed.

Lemma draw_loop (ms : list Matrix.t) :
  forall (z : Q) (calls : list (Matrix.t * Q)),
  exists (z' : Q) (new : list (Matrix.t * Q)),
    fold_left
      (fun '(z, calls) element =>
         (z + Matrix.L element, calls ++ [(element, z)]))
      ms (z, calls) = (z', calls ++ new) /\
    length new = length ms /\
    (forall (e : Matrix.t) (z0 : Q), nth_error new 0 = Some (e, z0) -> z0 = z) /\
    (forall (k : nat) (e e' : Matrix.t) (zk zk' : Q),
        nth_error new k = Some (e, zk) -> nth_error new (S k) = Some (e', zk') ->
        zk' = zk + Matrix.L e) /\
    (forall (k : nat) (e : Matrix.t) (zk : Q),
        nth_error new k = Some (e, zk) -> nth_error ms k = Some e) /\
    (forall r : Ray.t,
        Ray.z r == z ->
        forall (k : nat) (e : Matrix.t) (zk : Q) (rk : Ray.t),
          nth_error new k = Some (e, zk) ->
          nth_error (trace ms r) k = Some rk -> Ray.z rk == zk).
Proof.
  induction ms as [|e0 es IH]; intros z calls; simpl.
  - exists z, []. rewrite app_nil_r. split; [reflexivity|].
    split; [reflexivity|].
    repeat split; intros; try (destruct k); discriminate.
  - destruct (IH (z + Matrix.L e0) (calls ++ [(e0, z)]))
      as [z' [new [Hrun [Hlen [Hfirst [Hnext [Helem Hray]]]]]]].
    exists z', ((e0, z) :: new). rewrite Hrun, <- app_assoc.
    split; [reflexivity|]. split; [simpl; now rewrite Hlen|].
    split; [|split; [|split]].
    + intros e z0 H. simpl in H. congruence.
    + intros [|k] e e' zk zk' H H'; simpl in H, H'.
      * injection H as <- <-. now apply (Hfirst e').
      * now apply (Hnext k e e').
    + intros [|k] e zk H; simpl in H.
      * injection H as <- _. reflexivity.
      * now apply (Helem k e zk).
    + intros r Hr [|k] e zk rk H Hk; simpl in H, Hk.
      * injection H as _ <-. injection Hk as <-. exact Hr.
      * apply (Hray (Matrix.mul_ray e0 r)) with (k := k) (e := e); auto.
        destruct (mul_ray_coordinates e0 r) as [_ [_ ->]].
        rewrite Hr. ring.
Qed.

(** X10.  [drawOpticalElements] calls [drawAt] once per element, in path
    order: the first element at position 0 and each next one at the
    position of the element before it plus the length of that element.
    These are the positions where a ray launched at [z = 0] enters the
    elements: state [k] of its trace has the [z] handed to element [k]. *)
Theorem drawOpticalElements_positions (ms : list Matrix.t) (r : Ray.t)
        (out : stdout) :
  Ray.z r == 0 ->
  length (OpticalPath.drawOpticalElements (path_of ms)) = length ms /\
  (forall (e : Matrix.t) (z0 : Q),
      nth_error (OpticalPath.drawOpticalElements (path_of ms)) 0 = Some (e, z0) ->
      z0 = 0) /\
  (forall (k : nat) (e e' : Matrix.t) (zk zk' : Q),
      nth_error (OpticalPath.drawOpticalElements (path_of ms)) k = Some (e, zk) ->
      nth_error (OpticalPath.drawOpticalElements (path_of ms)) (S k) =
        Some (e', zk') ->
      zk' = zk + Matrix.L e) /\
  exists rays : list Ray.t,
    OpticalPath.propagate (path_of ms) (ORay r) out = (map ORay rays, out) /\
    forall (k : nat) (e : Matrix.t) (zk : Q),
      nth_error (OpticalPath.drawOpticalElements (path_of ms)) k = Some (e, zk) ->
      nth_error ms k = Some e /\
      exists rk : Ray.t, nth_error rays k = Some rk /\ Ray.z rk == zk.
Proof.
  intros Hr.
  unfold OpticalPath.drawOpticalElements. rewrite elements_path_of.
  destruct (draw_loop ms 0 [])
    as [z' [new [Hrun [Hlen [Hfirst [Hnext [Helem Hray]]]]]]].
  rewrite Hrun. cbn [snd app].
  split; [exact Hlen|]. split; [exact Hfirst|]. split; [exact Hnext|].
  exists (trace ms r). split.
  - now rewrite propagate_trace, elements_path_of.
  - intros k e zk H. pose proof (Helem k e zk H) as He.
    split; [exact He|].
    destruct (nth_error (trace ms r) k) as [rk|] eqn:Hrk.
    + exists rk. split; [reflexivity|]. now apply (Hray r Hr k e zk rk).
    + apply nth_error_None in Hrk. rewrite trace_length in Hrk.
      apply nth_error_Some_lt' in He. lia.
Qed.

Lemma drawOpticalElements_positions_witness :
  exists (e : Matrix.t) (zk : Q) (rays : list Ray.t) (rk : Ray.t),
    nth_error (OpticalPath.drawOpticalElements
                 (path_of [Space 10; Aperture 3; Space 5; Aperture 2])) 3 =
      Some (e, zk) /\
    nth_error [Space 10; Aperture 3; Space 5; Aperture 2] 3 = Some e /\
    OpticalPath.propagate (path_of [Space 10; Aperture 3; Space 5; Aperture 2])
      (ORay (Ray.Ray 1 0 0 false)) [] = (map ORay rays, []) /\
    nth_error rays 3 = Some rk /\ Ray.z rk == zk.
Proof.
  destruct (drawOpticalElements_positions
              [Space 10; Aperture 3; Space 5; Aperture 2]
              (Ray.Ray 1 0 0 false) [] ltac:(reflexivity))
    as [_ [_ [_ [rays [Hrun Hcalls]]]]].
  destruct (Hcalls 3%nat (Aperture 2) (0 + 10 + 0 + 5) eq_refl)
    as [He [rk [Hrk Hz]]].
  exists (Aperture 2), (0 + 10 + 0 + 5), rays, rk.
  split; [reflexivity|]. split; [exact He|]. split; [exact Hrun|].
  split; [exact Hrk | exact Hz].
Defined.

(** ** When a trace gets blocked *)

Lemma mul_ray_blocked_iff (e : Matrix.t) (r : Ray.t) :
  Ray.isBlocked (Matrix.mul_ray e r) = true <->
  Ray.isBlocked r = true \/ clipped e r.
Proof.
  unfold Matrix.mul_ray, clipped.
  destruct (Matrix.apertureDiameter e) as [d|]; simpl half.
  - destruct (gt (Qabs (Ray.y r)) (Finite (d / 2))) eqn:E; simpl.
    + apply gt_Finite in E. tauto.
    + split; [tauto|]. intros [H|H]; [exact H|].
      apply gt_Finite in H. congruence.
  - simpl. tauto.
Qed.

Lemma trace_prefix_exists (ms : list Matrix.t) (r : Ray.t) (k : nat) (rk : Ray.t) :
  nth_error (trace ms r) (S k) = Some rk ->
  exists (e : Matrix.t) (rk' : Ray.t),
    nth_error ms k = Some e /\ nth_error (trace ms r) k = Some rk' /\
    rk = Matrix.mul_ray e rk'.
Proof.
  intros H.
  pose proof (nth_error_Some_lt' _ _ _ H) as Hlt. rewrite trace_length in Hlt.
  destruct (nth_error ms k) as [e|] eqn:He;
    [|apply nth_error_None in He; lia].
  destruct (nth_error (trace ms r) k) as [rk'|] eqn:Hrk';
    [|apply nth_error_None in Hrk'; rewrite trace_length in Hrk'; lia].
  exists e, rk'. repeat split.
  rewrite (trace_step ms r k e rk' He Hrk') in H. congruence.
Qed.

Lemma trace_blocked_iff (ms : list Matrix.t) (r : Ray.t) :
  forall (k : nat) (rk : Ray.t),
    nth_error (trace ms r) k = Some rk ->
    (Ray.isBlocked rk = true <->
     Ray.isBlocked r = true \/
     exists (i : nat) (e : Matrix.t) (ri : Ray.t),
       (i < k)%nat /\ nth_error ms i = Some e /\
       nth_error (trace ms r) i = Some ri /\ clipped e ri).
Proof.
  induction k as [|k IH]; intros rk Hk.
  - rewrite trace_first in Hk. injection Hk as <-.
    split; [tauto|]. intros [H|[i [e [ri [Hi _]]]]]; [exact H | lia].
  - destruct (trace_prefix_exists ms r k rk Hk) as [e [rk' [He [Hrk' ->]]]].
    rewrite mul_ray_blocked_iff, (IH rk' Hrk').
    split.
    + intros [[H|[i [e' [ri [Hi H]]]]]|H].
      * now left.
      * right. exists i, e', ri. split; [lia | exact H].
      * right. exists k, e, rk'. repeat split; auto.
    + intros [H|[i [e' [ri [Hi [He' [Hri Hclip]]]]]]].
      * left. now left.
      * destruct (Nat.eq_dec i k) as [->|Hne].
        -- right. congruence.
        -- left. right. exists i, e', ri. repeat split; auto. lia.
Qed.

(** X11.  A state of the trace is blocked exactly when the input ray was
    blocked or the ray entered an earlier element of the path outside the
    aperture of that element ([|y| > a/2], with the height it had when
    entering).  So along a path whose elements all have the default
    aperture, every state has the [isBlocked] of the input ray. *)
Theorem trace_blocked_exactly (ms : list Matrix.t) (r : Ray.t) (out : stdout) :
  exists rays : list Ray.t,
    OpticalPath.propagate (path_of ms) (ORay r) out = (map ORay rays, out) /\
    (forall (k : nat) (rk : Ray.t),
        nth_error rays k = Some rk ->
        (Ray.isBlocked rk = true <->
         Ray.isBlocked r = true \/
         exists (i : nat) (e : Matrix.t) (ri : Ray.t),
           (i < k)%nat /\ nth_error ms i = Some e /\
           nth_error rays i = Some ri /\ clipped e ri)) /\
    (Forall (fun e => Matrix.apertureDiameter e = PosInf) ms ->
     forall (k : nat) (rk : Ray.t),
       nth_error rays k = Some rk -> Ray.isBlocked rk = Ray.isBlocked r).
Proof.
  exists (trace ms r). rewrite propagate_trace, elements_path_of.
  split; [reflexivity|]. split; [apply trace_blocked_iff|].
  intros Hinf k rk Hk.
  pose proof (trace_blocked_iff ms r k rk Hk) as Hiff.
  destruct (Ray.isBlocked r) eqn:Hr.
  - apply Hiff. now left.
  - destruct (Ray.isBlocked rk) eqn:Hrk; [|reflexivity].
    destruct Hiff as [Hiff _].
    destruct (Hiff eq_refl) as [H|[i [e [ri [_ [He [_ Hclip]]]]]]];
      [discriminate|].
    rewrite Forall_forall in Hinf.
    unfold clipped in Hclip.
    rewrite (Hinf e (nth_error_In _ _ He)) in Hclip. contradiction.
Qed.

Lemma trace_blocked_exactly_witness :
  exists rays : list Ray.t,
    OpticalPath.propagate (path_of [Space 10; Space 5]) (ORay (Ray.Ray 1 (1 # 2) 0 false)) [] =
      (map ORay rays, []) /\
    forall rk : Ray.t, nth_error rays 2 = Some rk -> Ray.isBlocked rk = false.
Proof.
  destruct (trace_blocked_exactly [Space 10; Space 5] (Ray.Ray 1 (1 # 2) 0 false) [])
    as [rays [Hrun [_ Hinf]]].
  exists rays. split; [exact Hrun|].
  intros rk Hk. apply (Hinf ltac:(repeat constructor) 2%nat rk Hk).
Defined.

(** ** Points handed to the plot *)

Lemma rearrange_unblocked (flag : bool) (rays : list Ray.t) :
  Forall (fun r => Ray.isBlocked r = false) rays ->
  forall x y : list Q,
    fold_left
      (fun '(x, y) ray =>
         if negb (Ray.isBlocked ray) then (x ++ [Ray.z ray], y ++ [Ray.y ray])
         else if flag then ([], [])
         else (x, y))
      rays (x, y) =
    (x ++ map Ray.z rays, y ++ map Ray.y rays).
Proof.
  induction 1 as [|r rays Hr _ IH]; intros x y; simpl.
  - now rewrite !app_nil_r.
  - rewrite Hr. simpl. rewrite IH, <- !app_assoc. reflexivity.
Qed.

Lemma rearrange_filter (rays : list Ray.t) :
  forall x y : list Q,
    fold_left
      (fun '(x, y) ray =>
         if negb (Ray.isBlocked ray) then (x ++ [Ray.z ray], y ++ [Ray.y ray])
         else if false then ([], [])
         else (x, y))
      rays (x, y) =
    (x ++ map Ray.z (filter (fun r => negb (Ray.isBlocked r)) rays),
     y ++ map Ray.y (filter (fun r => negb (Ray.isBlocked r)) rays)).
Proof.
  induction rays as [|r rays IH]; intros x y; simpl.
  - now rewrite !app_nil_r.
  - destruct (Ray.isBlocked r); simpl.
    + apply IH.
    + rewrite IH, <- !app_assoc. reflexivity.
Qed.

Lemma rearrange_reset (pre post : list Ray.t) (b : Ray.t) :
  Ray.isBlocked b = true ->
  OpticalPath.rearrangeRaysForPlotting (pre ++ b :: post) true =
  OpticalPath.rearrangeRaysForPlotting post true.
Proof.
  intros Hb. unfold OpticalPath.rearrangeRaysForPlotting.
  rewrite fold_left_app. simpl.
  destruct (fold_left _ pre ([], [])) as [x y].
  rewrite Hb. reflexivity.
Qed.

Lemma list_snoc_last {X : Type} (l : list X) (n : nat) (x : X) :
  nth_error l n = Some x -> length l = S n -> l = firstn n l ++ [x].
Proof.
  intros Hn Hlen.
  destruct (nth_error_split l n Hn) as [l1 [l2 [-> Hl1]]].
  rewrite length_app in Hlen. simpl in Hlen.
  destruct l2; [|simpl in Hlen; lia].
  rewrite <- Hl1, firstn_app, firstn_all, Nat.sub_diag. simpl.
  now rewrite app_nil_r.
Qed.

Lemma trace_unblocked_before (ms : list Matrix.t) (r : Ray.t) (last : Ray.t) :
  nth_error (trace ms r) (length ms) = Some last ->
  Ray.isBlocked last = false ->
  Forall (fun s => Ray.isBlocked s = false) (trace ms r).
Proof.
  intros Hlast Hb. apply Forall_forall. intros s Hs.
  destruct (In_nth_error _ _ Hs) as [i Hi].
  destruct (Ray.isBlocked s) eqn:E; [|reflexivity].
  pose proof (nth_error_Some_lt' _ _ _ Hi) as Hlt. rewrite trace_length in Hlt.
  rewrite <- Hb. symmetry.
  apply (trace_blocked_later ms r i (length ms) s last); auto. lia.
Qed.

Lemma trace_split_blocked (ms : list Matrix.t) :
  forall r : Ray.t,
  exists k : nat,
    Forall (fun s => Ray.isBlocked s = false) (firstn k (trace ms r)) /\
    Forall (fun s => Ray.isBlocked s = true) (skipn k (trace ms r)).
Proof.
  induction ms as [|e es IH]; intros r.
  - destruct (Ray.isBlocked r) eqn:Hr.
    + exists 0%nat. simpl. split; repeat constructor. exact Hr.
    + exists 1%nat. simpl. split; repeat constructor. exact Hr.
  - destruct (Ray.isBlocked r) eqn:Hr.
    + exists 0%nat. split; [constructor|].
      now apply trace_all_blocked.
    + destruct (IH (Matrix.mul_ray e r)) as [k [Hfirst Hrest]].
      exists (S k). simpl. split; [now constructor | exact Hrest].
Qed.

Lemma filter_split_blocked (l1 l2 : list Ray.t) :
  Forall (fun s => Ray.isBlocked s = false) l1 ->
  Forall (fun s => Ray.isBlocked s = true) l2 ->
  filter (fun r => negb (Ray.isBlocked r)) (l1 ++ l2) = l1.
Proof.
  intros H1 H2. rewrite filter_app.
  assert (E1 : filter (fun r => negb (Ray.isBlocked r)) l1 = l1).
  { induction H1 as [|s l Hs _ IH]; simpl; [reflexivity|].
    now rewrite Hs, IH. }
  assert (E2 : filter (fun r => negb (Ray.isBlocked r)) l2 = []).
  { induction H2 as [|s l Hs _ IH]; simpl; [reflexivity|].
    now rewrite Hs. }
  now rewrite E1, E2, app_nil_r.
Qed.

(** X12.  With [removeBlockedRaysCompletely] set, [rearrangeRaysForPlotting]
    restarts from nothing at every blocked ray: it returns the positions
    and heights of the rays that come after the last blocked ray of the
    list, and of all the rays when none is blocked.  The two lists it
    returns have the same length. *)
Theorem rearrange_after_last_blocked (pre post : list Ray.t) :
  Forall (fun r => Ray.isBlocked r = false) post ->
  OpticalPath.rearrangeRaysForPlotting post true =
    (map Ray.z post, map Ray.y post) /\
  (forall b : Ray.t,
      Ray.isBlocked b = true ->
      OpticalPath.rearrangeRaysForPlotting (pre ++ b :: post) true =
        (map Ray.z post, map Ray.y post)) /\
  (forall rayList : list Ray.t,
      length (fst (OpticalPath.rearrangeRaysForPlotting rayList true)) =
      length (snd (OpticalPath.rearrangeRaysForPlotting rayList true))).
Proof.
  intros Hpost.
  assert (E : OpticalPath.rearrangeRaysForPlotting post true =
              (map Ray.z post, map Ray.y post)).
  { unfold OpticalPath.rearrangeRaysForPlotting.
    now rewrite (rearrange_unblocked true post Hpost). }
  split; [exact E|]. split.
  - intros b Hb. now rewrite rearrange_reset.
  - intros rayList. unfold OpticalPath.rearrangeRaysForPlotting.
    assert (H : forall x y : list Q, length x = length y ->
              length (fst (fold_left
                (fun '(x, y) ray =>
                   if negb (Ray.isBlocked ray)
                   then (x ++ [Ray.z ray], y ++ [Ray.y ray])
                   else if true then ([], []) else (x, y)) rayList (x, y))) =
              length (snd (fold_left
                (fun '(x, y) ray =>
                   if negb (Ray.isBlocked ray)
                   then (x ++ [Ray.z ray], y ++ [Ray.y ray])
                   else if true then ([], []) else (x, y)) rayList (x, y)))).
    { induction rayList as [|r rs IH]; intros x y Hxy; simpl; [exact Hxy|].
      destruct (Ray.isBlocked r); simpl; apply IH; [reflexivity|].
      rewrite !length_app. simpl. lia. }
    now apply H.
Qed.

Lemma rearrange_after_last_blocked_witness :
  OpticalPath.rearrangeRaysForPlotting
    ([Ray.Ray 1 0 0 false] ++ Ray.Ray 2 0 1 true :: [Ray.Ray 3 0 2 false]) true =
  (map Ray.z [Ray.Ray 3 0 2 false], map Ray.y [Ray.Ray 3 0 2 false]).
Proof.
  destruct (rearrange_after_last_blocked [Ray.Ray 1 0 0 false] [Ray.Ray 3 0 2 false]
              ltac:(repeat constructor)) as [_ [H _]].
  apply H. reflexivity.
Defined.

(** X13.  On the trace of a ray, with [removeBlockedRaysCompletely] set,
    [rearrangeRaysForPlotting] is all or nothing: when the last state is
    not blocked it returns the position and the height of every state of
    the trace, and when it is blocked it returns two empty lists. *)
Theorem rearrange_trace_all_or_nothing (ms : list Matrix.t) (r : Ray.t)
        (out : stdout) :
  exists (rays : list Ray.t) (last : Ray.t),
    OpticalPath.propagate (path_of ms) (ORay r) out = (map ORay rays, out) /\
    nth_error rays (length ms) = Some last /\
    OpticalPath.rearrangeRaysForPlotting rays true =
      (if Ray.isBlocked last then ([], [])
       else (map Ray.z rays, map Ray.y rays)).
Proof.
  destruct (trace_app ms [] r) as [last [Hlast _]].
  exists (trace ms r), last.
  rewrite propagate_trace, elements_path_of.
  split; [reflexivity|]. split; [exact Hlast|].
  destruct (Ray.isBlocked last) eqn:Hb.
  - rewrite (list_snoc_last _ _ _ Hlast (trace_length ms r)).
    now rewrite rearrange_reset.
  - unfold OpticalPath.rearrangeRaysForPlotting.
    rewrite (rearrange_unblocked true);
      [reflexivity | now apply (trace_unblocked_before ms r last)].
Qed.

(** X14.  Without [removeBlockedRaysCompletely], [rearrangeRaysForPlotting]
    returns the positions and heights of the rays of the list that are not
    blocked.  On the trace of a ray these are the states before the first
    blocked one: the line stops where the ray is blocked. *)
Theorem rearrange_trace_stops (rayList : list Ray.t) (ms : list Matrix.t)
        (r : Ray.t) (out : stdout) :
  OpticalPath.rearrangeRaysForPlotting rayList false =
    (map Ray.z (filter (fun s => negb (Ray.isBlocked s)) rayList),
     map Ray.y (filter (fun s => negb (Ray.isBlocked s)) rayList)) /\
  exists (rays : list Ray.t) (k : nat),
    OpticalPath.propagate (path_of ms) (ORay r) out = (map ORay rays, out) /\
    Forall (fun s => Ray.isBlocked s = false) (firstn k rays) /\
    Forall (fun s => Ray.isBlocked s = true) (skipn k rays) /\
    OpticalPath.rearrangeRaysForPlotting rays false =
      (map Ray.z (firstn k rays), map Ray.y (firstn k rays)).
Proof.
  assert (E : forall l, OpticalPath.rearrangeRaysForPlotting l false =
    (map Ray.z (filter (fun s => negb (Ray.isBlocked s)) l),
     map Ray.y (filter (fun s => negb (Ray.isBlocked s)) l))).
  { intros l. unfold OpticalPath.rearrangeRaysForPlotting.
    now rewrite rearrange_filter. }
  split; [apply E|].
  destruct (trace_split_blocked ms r) as [k [Hfirst Hrest]].
  exists (trace ms r), k.
  rewrite propagate_trace, elements_path_of.
  split; [reflexivity|]. split; [exact Hfirst|]. split; [exact Hrest|].
  rewrite E.
  rewrite <- (firstn_skipn k (trace ms r)) at 1 2.
  now rewrite (filter_split_blocked _ _ Hfirst Hrest).
Qed.

(** ** Lenses, spaces and the description of an element *)

Lemma div_cases (a b : Q) :
  (b == 0 -> div a b = Raise ZeroDivisionError) /\
  (~ b == 0 -> div a b = Ok (a / b)).
Proof.
  unfold div. split; intros H.
  - apply Qeq_bool_iff in H. now rewrite H.
  - destruct (Qeq_bool b 0) eqn:E; [|reflexivity].
    apply Qeq_bool_iff in E. contradiction.
Qed.

Lemma div_raises_iff (a b : Q) :
  (exists e : exn, div a b = Raise e) <-> b == 0.
Proof.
  destruct (div_cases a b) as [Hz Hnz]. split.
  - intros [e He]. destruct (Qeq_dec b 0) as [|Hne]; [assumption|].
    rewrite (Hnz Hne) in He. discriminate.
  - intros H. exists ZeroDivisionError. now apply Hz.
Qed.

Lemma minus_one_over_nonzero (f : Q) : ~ f == 0 -> ~ -1 / f == 0.
Proof.
  intros Hf H.
  assert (E : -1 == (-1 / f) * f) by (field; exact Hf).
  rewrite H in E. discriminate E.
Qed.

Lemma Lens_ok (f : Q) (a : number) :
  ~ f == 0 -> Lens f a = Ok (Matrix.init 1 0 (-1 / f) 1 0 a).
Proof.
  intros Hf. unfold Lens.
  destruct (div_cases (-1) f) as [_ Hnz]. now rewrite (Hnz Hf).
Qed.

(** X15.  [Lens(f, diameter)] raises, and then a [ZeroDivisionError],
    exactly when [f] is zero.  Otherwise it is the element with
    [A = 1, B = 0, C = -1/f, D = 1, L = 0] and the given aperture: it leaves
    the height and the position of a ray as they are and turns the angle
    into [(-1/f)*y + 1*theta]. *)
Theorem Lens_thin (f : Q) (a : number) (r : Ray.t) :
  ((exists e : exn, Lens f a = Raise e) <-> f == 0) /\
  (~ f == 0 ->
   exists lens : Matrix.t,
     Lens f a = Ok lens /\
     lens = Matrix.init 1 0 (-1 / f) 1 0 a /\
     Ray.y (Matrix.mul_ray lens r) == Ray.y r /\
     Ray.theta (Matrix.mul_ray lens r) = -1 / f * Ray.y r + 1 * Ray.theta r /\
     Ray.z (Matrix.mul_ray lens r) == Ray.z r).
Proof.
  split.
  - unfold Lens. rewrite <- (div_raises_iff (-1) f).
    destruct (div (-1) f) as [c|e0]; simpl; split; intros [e He];
      try discriminate; exists e; congruence.
  - intros Hf. eexists. split; [apply Lens_ok; exact Hf|].
    split; [reflexivity|].
    destruct (mul_ray_coordinates (Matrix.init 1 0 (-1 / f) 1 0 a) r)
      as [-> [-> ->]].
    simpl. repeat split; ring.
Qed.

Lemma Lens_thin_witness :
  exists lens : Matrix.t,
    Lens 5 (Finite (5 # 2)) = Ok lens /\
    Ray.theta (Matrix.mul_ray lens (Ray.Ray 1 0 10 false)) = -1 / 5 * 1 + 1 * 0.
Proof.
  destruct (Lens_thin 5 (Finite (5 # 2)) (Ray.Ray 1 0 10 false)) as [_ H].
  destruct (H ltac:(discriminate)) as [lens [Hlens [_ [_ [Htheta _]]]]].
  exists lens. split; [exact Hlens | exact Htheta].
Defined.



Lemma str_cases (m : Matrix.t) :
  (Matrix.C m == 0 -> Matrix.__str__ m = Raise ZeroDivisionError) /\
  (~ Matrix.C m == 0 ->
   Matrix.__str__ m =
   Ok [Format ("A={0}, B={1}, C={2}, D={3}" ++ String (Ascii.ascii_of_nat 10) "")
              [Matrix.A m; Matrix.B m; Matrix.C m; Matrix.D m];
       Format "f={0:0.3f}" [-1 / Matrix.C m]]).
Proof.
  unfold Matrix.__str__. destruct (div_cases (-1) (Matrix.C m)) as [Hz Hnz].
  split; intros H.
  - now rewrite (Hz H).
  - now rewrite (Hnz H).
Qed.

(** X19.  [Matrix.__str__] raises, and then a [ZeroDivisionError], exactly
    when the coefficient [C] of the element is zero: there is no description
    of a [Space] or of an [Aperture].  For another element the description
    is made of the four coefficients and of the focal length [-1/C]; for
    [Lens(f)] this is the number [-1/(-1/f)]. *)
Theorem str_needs_focal_length (m : Matrix.t) (d f : Q) (a : number) :
  ((exists e : exn, Matrix.__str__ m = Raise e) <-> Matrix.C m == 0) /\
  Matrix.__str__ (Space d) = Raise ZeroDivisionError /\
  Matrix.__str__ (Aperture d) = Raise ZeroDivisionError /\
  (~ Matrix.C m == 0 ->
   Matrix.__str__ m =
   Ok [Format ("A={0}, B={1}, C={2}, D={3}" ++ String (Ascii.ascii_of_nat 10) "")
              [Matrix.A m; Matrix.B m; Matrix.C m; Matrix.D m];
       Format "f={0:0.3f}" [-1 / Matrix.C m]]) /\
  (~ f == 0 ->
   exists lens : Matrix.t,
     Lens f a = Ok lens /\
     Matrix.__str__ lens =
     Ok [Format ("A={0}, B={1}, C={2}, D={3}" ++ String (Ascii.ascii_of_nat 10) "")
                [1; 0; -1 / f; 1];
         Format "f={0:0.3f}" [-1 / (-1 / f)]]).
Proof.
  destruct (str_cases m) as [Hz Hnz].
  split; [|split; [reflexivity|split; [reflexivity|split; [exact Hnz|]]]].
  - split.
    + intros [e He]. destruct (Qeq_dec (Matrix.C m) 0) as [|Hne]; [assumption|].
      rewrite (Hnz Hne) in He. discriminate.
    + intros H. exists ZeroDivisionError. now apply Hz.
  - intros Hf. eexists.
    split; [apply Lens_ok; exact Hf|].
    destruct (str_cases (Matrix.init 1 0 (-1 / f) 1 0 a)) as [_ H].
    rewrite H by (simpl; now apply minus_one_over_nonzero).
    reflexivity.
Qed.

Lemma str_needs_focal_length_witness :
  exists lens : Matrix.t,
    Lens 5 PosInf = Ok lens /\
    Matrix.__str__ lens =
    Ok [Format ("A={0}, B={1}, C={2}, D={3}" ++ String (Ascii.ascii_of_nat 10) "")
               [1; 0; -1 / 5; 1];
        Format "f={0:0.3f}" [-1 / (-1 / 5)]].
Proof.
  destruct (str_needs_focal_length (Space 1) 1 5 PosInf) as [_ [_ [_ [_ H]]]].
  apply H. discriminate.
Defined.

(** ** Propagating an element instead of a ray *)

Lemma propagate_matrix_loop (elements : list Matrix.t) :
  forall (m : Matrix.t) (outputRays : list object) (out : stdout),
  exists new : list Matrix.t,
    for_io elements
      (fun element '(ray, outputRays) out =>
         let (ray, out) := __mul__ element ray out in
         ((ray, outputRays ++ [ray]), out))
      (OMatrix m, outputRays) out =
    ((OMatrix (fold_left (fun t element => Matrix.mul_matrix element t) elements m),
      outputRays ++ map OMatrix new), out) /\
    length new = length elements /\
    nth_error (m :: new) (length elements) =
      Some (fold_left (fun t element => Matrix.mul_matrix element t) elements m) /\
    forall (k : nat) (e t : Matrix.t),
      nth_error elements k = Some e -> nth_error (m :: new) k = Some t ->
      nth_error (m :: new) (S k) = Some (Matrix.mul_matrix e t).
Proof.
  induction elements as [|e0 es IH]; intros m outputRays out.
  - exists []. simpl. rewrite app_nil_r. repeat split.
    intros [|k] e t H; discriminate.
  - destruct (IH (Matrix.mul_matrix e0 m)
                 (outputRays ++ [OMatrix (Matrix.mul_matrix e0 m)]) out)
      as [new [Hrun [Hlen [Hlast Hstep]]]].
    exists (Matrix.mul_matrix e0 m :: new). cbn [for_io].
    rewrite mul_dispatch_matrix, Hrun, <- app_assoc.
    split; [reflexivity|]. split; [simpl; now rewrite Hlen|].
    split; [exact Hlast|].
    intros [|k] e t He Ht.
    + simpl in *. congruence.
    + apply (Hstep k e t He Ht).
Qed.

(** X20.  [propagate] does not ask for a ray: given an element [m] it
    returns the running products, [m] first and then each element of the
    path times the entry before it, and prints nothing.  Started from the
    identity element, its last entry is the matrix that [transferMatrix]
    returns. *)
Theorem propagate_matrix (ms : list Matrix.t) (m : Matrix.t) (out : stdout) :
  exists products : list Matrix.t,
    OpticalPath.propagate (path_of ms) (OMatrix m) out =
      (map OMatrix products, out) /\
    length products = S (length ms) /\
    nth_error products 0 = Some m /\
    (forall (k : nat) (e t : Matrix.t),
        nth_error ms k = Some e -> nth_error products k = Some t ->
        nth_error products (S k) = Some (Matrix.mul_matrix e t)) /\
    (m = Matrix.init 1 0 0 1 0 PosInf ->
     exists t : Matrix.t,
       OpticalPath.transferMatrix (path_of ms) out = (OMatrix t, out) /\
       nth_error products (length ms) = Some t).
Proof.
  destruct (propagate_matrix_loop ms m [OMatrix m] out)
    as [new [Hrun [Hlen [Hlast Hstep]]]].
  exists (m :: new). unfold OpticalPath.propagate.
  rewrite elements_path_of, Hrun. cbn [snd app map].
  split; [reflexivity|]. split; [simpl; now rewrite Hlen|].
  split; [reflexivity|]. split; [exact Hstep|].
  intros ->. eexists. split; [|exact Hlast].
  unfold OpticalPath.transferMatrix.
  now rewrite transferMatrix_loop, elements_path_of.
Qed.

Lemma propagate_matrix_witness :
  exists (products : list Matrix.t) (t : Matrix.t),
    OpticalPath.propagate (path_of [Space 10; Aperture 3; Space 5])
      (OMatrix (Matrix.init 1 0 0 1 0 PosInf)) [] = (map OMatrix products, []) /\
    OpticalPath.transferMatrix (path_of [Space 10; Aperture 3; Space 5]) [] =
      (OMatrix t, []) /\
    nth_error products 3 = Some t.
Proof.
  destruct (propagate_matrix [Space 10; Aperture 3; Space 5]
              (Matrix.init 1 0 0 1 0 PosInf) [])
    as [products [Hrun [_ [_ [_ H]]]]].
  destruct (H eq_refl) as [t [Ht Hlast]].
  exists products, t. split; [exact Hrun|]. split; [exact Ht | exact Hlast].
Defined.

(** X9.  The transfer matrix of a path that continues [ms1] with [ms2] is
    what the elements of [ms2] make of the transfer matrix of [ms1] when
    they are multiplied on it one after the other: it is the last of the
    running products that [propagate] returns along [ms2] for that
    matrix. *)
Theorem transferMatrix_continues (ms1 ms2 : list Matrix.t) (out : stdout) :
  exists (t1 t : Matrix.t) (products : list Matrix.t),
    OpticalPath.transferMatrix (path_of ms1) out = (OMatrix t1, out) /\
    OpticalPath.transferMatrix (path_of (ms1 ++ ms2)) out = (OMatrix t, out) /\
    OpticalPath.propagate (path_of ms2) (OMatrix t1) out =
      (map OMatrix products, out) /\
    nth_error products (length ms2) = Some t.
Proof.
  unfold OpticalPath.transferMatrix.
  rewrite !transferMatrix_loop, !elements_path_of, fold_left_app.
  destruct (propagate_matrix_loop ms2
              (fold_left (fun t element => Matrix.mul_matrix element t) ms1
                         (Matrix.init 1 0 0 1 0 PosInf))
              [OMatrix (fold_left (fun t element => Matrix.mul_matrix element t)
                                  ms1 (Matrix.init 1 0 0 1 0 PosInf))] out)
    as [new [Hrun [_ [Hlast _]]]].
  eexists. eexists.
  exists (fold_left (fun t element => Matrix.mul_matrix element t) ms1
                    (Matrix.init 1 0 0 1 0 PosInf) :: new).
  split; [reflexivity|]. split; [reflexivity|].
  unfold OpticalPath.propagate. rewrite elements_path_of, Hrun.
  split; [reflexivity | exact Hlast].
Qed.
